(** * DroneLENS landing page: the lead form, the portfolio marquee, the theme
      toggle and the star rating

    A shallow embedding of the stateful and list-building parts of the
    React components under [src/]:

    - [Contact], [ContactLifecycle] : src/components/sections/Contact.tsx
    - [Portfolio], [PortfolioTrack] : src/components/sections/Portfolio.tsx
                       with the PORTFOLIO_ITEMS table of src/lib/constants.ts
    - [ThemeToggle], [ThemeToggleButton] : the ThemeToggle component
    - [Testimonials], [StarCount] : the StarRating helper of the
                       testimonials section
    - [Navbar]       : the Navbar component with NAV_LINKS and the section
                       ids of the page
    - [Hero]         : the headline of the Hero section
    - [Process]      : the step cards of the Process section

    React state ([useState]) is modelled by explicit state passing: a
    component is a record of its state cells, a setter is a function on that
    record, an event handler is the composition of the setters it calls.
    A JS object used as a record with computed keys is a [gmap string _]. *)

From Stdlib Require Import ZArith QArith Qminmax Qround Lqa.
From stdpp Require Import gmap strings list pretty.

Open Scope string_scope.

(* ===================================================================== *)
(** ** Contact.tsx: the lead form                                         *)
(* ===================================================================== *)

Module Contact.

(** [type FormState = 'idle' | 'loading' | 'success' | 'error'] *)
Inductive FormState : Set := idle | loading | success | error.

#[export] Instance FormState_eq_dec : EqDecision FormState.
Proof. solve_decision. Defined.

(** [interface FormData]: at run time a plain JS object.  [handleChange]
    writes it through a computed key, so the faithful model is a finite map
    from property names to strings and not a five-field record. *)
Abbreviation FormData := (gmap string string).

(** The five property names that [interface FormData] declares. *)
Definition declared_fields : list string :=
  ["name"; "email"; "phone"; "service"; "message"].

(** [const EMPTY_FORM: FormData = { name: '', email: '', phone: '',
    service: '', message: '' }] *)
Definition EMPTY_FORM : FormData :=
  list_to_map
    [("name", ""); ("email", ""); ("phone", ""); ("service", ""); ("message", "")].

(** How the promise awaited by [handleSubmit] settles. *)
Inductive settlement : Set := fulfilled | rejected.

(** A pending [setTimeout] callback.  The only callbacks this component ever
    registers are settle functions of the promise that a suspended
    [handleSubmit] awaits, so a timer is recorded by the settlement its
    callback produces and by its delay in milliseconds. *)
Record timer : Set := Timer { on_timeout : settlement; delay : Z }.

#[export] Instance settlement_eq_dec : EqDecision settlement.
Proof. solve_decision. Defined.

(** The state of one mounted [Contact] component: the two [useState] cells
    and the timers of the event loop that still refer to it, oldest first. *)
Record component : Type := Component {
  formData  : FormData;
  formState : FormState;
  timers    : list timer;
}.

(** [useState<FormData>(EMPTY_FORM)], [useState<FormState>('idle')]. *)
Definition initial : component := Component EMPTY_FORM idle [].

(** [setFormData(updater)] with a functional updater. *)
Definition setFormData (f : FormData → FormData) (c : component) : component :=
  Component (f (formData c)) (formState c) (timers c).

(** [setFormState(s)]. *)
Definition setFormState (s : FormState) (c : component) : component :=
  Component (formData c) s (timers c).

(** [setTimeout(callback, ms)]: the timer is queued behind the older ones. *)
Definition setTimeout (cb : settlement) (ms : Z) (c : component) : component :=
  Component (formData c) (formState c) (timers c ++ [Timer cb ms]).

(** [{ ...prev, [name]: value }]: a fresh object with every property of
    [prev] and the property [name] set (added when absent, replaced when
    present). *)
Definition spread_with (name value : string) (prev : FormData) : FormData :=
  <[name := value]> prev.

(** [handleChange(e)], with [e.target.name] and [e.target.value]:
    [setFormData((prev) => ({ ...prev, [e.target.name]: e.target.value }))] *)
Definition handleChange (name value : string) (c : component) : component :=
  setFormData (spread_with name value) c.

(** The simulated request of [handleSubmit]:
    [new Promise((resolve) => setTimeout(resolve, 1800))].
    The executor takes [resolve] only and hands it to a timer of 1800 ms. *)
Definition simulated_request : timer := Timer fulfilled 1800.

(** [handleSubmit(e)] up to its [await]: [e.preventDefault()] (no effect on
    the component), [setFormState('loading')], then the promise executor
    registers the timer and the function suspends. *)
Definition handleSubmit (c : component) : component :=
  setTimeout (on_timeout simulated_request) (delay simulated_request)
    (setFormState loading c).

(** [handleSubmit] after its [await]: the rest of the [try] block when the
    promise is fulfilled, the [catch] block when it is rejected.
<<
      try { await ...; setFormState('success') } catch { setFormState('error') }
>> *)
Definition handleSubmit_resume (s : settlement) (c : component) : component :=
  match s with
  | fulfilled => setFormState success c
  | rejected  => setFormState error c
  end.

(** [handleReset()]: [setFormData(EMPTY_FORM); setFormState('idle')]. *)
Definition handleReset (c : component) : component :=
  setFormState idle (setFormData (λ _, EMPTY_FORM) c).

(** *** What is rendered

    [{formState === 'success' ? <SuccessState onReset={handleReset}/>
                              : <motion.form onSubmit={handleSubmit}> ...}]:
    the render returns the form exactly when the state is not ['success'],
    the "Enviar outra mensagem" button exactly when it is.

    The switch sits inside [<AnimatePresence mode="wait">]: when the state
    becomes ['success'] the form is no longer returned, but it stays in the
    document, as it was last rendered, until its exit animation is over.
    Its inputs keep their [onChange]; its submit button keeps the
    [disabled] it had in the loading state. *)
Definition form_rendered (c : component) : bool :=
  bool_decide (formState c ≠ success).

Definition reset_rendered (c : component) : bool :=
  bool_decide (formState c = success).

(** [<button type="submit" disabled={formState === 'loading'}>]: the form's
    only submit button.  A form whose default button is disabled is not
    submitted, neither by a click nor by Enter in a field. *)
Definition submit_disabled (c : component) : bool :=
  bool_decide (formState c = loading).

(** [{formState === 'error' && <p>Ocorreu um erro ao enviar...</p>}] *)
Definition error_shown (c : component) : bool :=
  form_rendered c && bool_decide (formState c = error).

(** *** Events

    What can happen to a mounted component: the user changes a field, asks
    for submission, clicks the reset button, or the oldest pending timer
    fires.  React re-renders after each of them, so each event meets the
    controls as the state before it rendered them; an event aimed at a
    control that is absent or disabled does nothing.

    A change event is let through in every state: the inputs are there
    while the form is rendered and, in the success state, for as long as
    the exiting form is still in the document; how long that is, the model
    does not track.  A submit in the success state meets the exiting
    form's disabled button and does nothing. *)
Inductive event : Type :=
  | Change (name value : string)   (* updateField(name, value) *)
  | Submit                         (* submit() *)
  | ClickReset                     (* reset() *)
  | Timeout.                       (* the simulated delay elapses *)

Definition fire (c : component) : component :=
  match timers c with
  | [] => c
  | t :: ts =>
      handleSubmit_resume (on_timeout t) (Component (formData c) (formState c) ts)
  end.

Definition step (e : event) (c : component) : component :=
  match e with
  | Change name value => handleChange name value c
  | Submit =>
      if form_rendered c && negb (submit_disabled c) then handleSubmit c else c
  | ClickReset =>
      if reset_rendered c then handleReset c else c
  | Timeout => fire c
  end.

Fixpoint run (evs : list event) (c : component) : component :=
  match evs with
  | [] => c
  | e :: evs => run evs (step e c)
  end.

(** The writes that the change events of an execution carry, in order. *)
Fixpoint writes_of (evs : list event) : list (string * string) :=
  match evs with
  | [] => []
  | Change name value :: evs => (name, value) :: writes_of evs
  | _ :: evs => writes_of evs
  end.

(** A sequence of [updateField] calls, each a call of [handleChange], in the
    order of the list. *)
Definition updateFields (ws : list (string * string)) (c : component) : component :=
  foldl (λ c w, handleChange w.1 w.2 c) c ws.

(** The value of the last write to field [k] in [ws], if there is one. *)
Fixpoint last_write (k : string) (ws : list (string * string)) : option string :=
  match ws with
  | [] => None
  | (n, v) :: ws =>
      match last_write k ws with
      | Some v' => Some v'
      | None => if decide (n = k) then Some v else None
      end
  end.

(** The transitions of the specification's state diagram, each with the
    operation that takes it. *)
Inductive transition : event → FormState → FormState → Prop :=
  | submit_starts    : transition Submit idle loading
  | settle_succeeds  : transition Timeout loading success
  | settle_fails     : transition Timeout loading error
  | reset_of_success : transition ClickReset success idle
  | reset_of_error   : transition ClickReset error idle.

(** What holds of every state the component can be in: a timer is pending
    exactly while the state is ['loading'], it is the one simulated request,
    and the state is never ['error']. *)
Definition consistent (c : component) : Prop :=
  match formState c with
  | idle | success => timers c = []
  | loading => timers c = [simulated_request]
  | error => False
  end.

(** What every handler preserves, whether or not a control let it run: the
    state is not error and every queued timer resolves its promise. *)
Definition never_fails (c : component) : Prop :=
  formState c ≠ error ∧ Forall (λ t, on_timeout t = fulfilled) (timers c).

(** The scenario of the specification: name, email and message filled in. *)
Definition ana_form : component :=
  Component (<["message" := "Oi"]> (<["email" := "ana@x.com"]>
               (<["name" := "Ana"]> EMPTY_FORM))) idle [].

(** *** The model on concrete inputs *)

Example submit_then_timeout :
  run [Change "name" "Ana"; Change "email" "ana@x.com"; Change "message" "Oi";
       Submit; Timeout] initial
  = Component (<["message" := "Oi"]> (<["email" := "ana@x.com"]>
                 (<["name" := "Ana"]> EMPTY_FORM))) success [].
Proof. reflexivity. Qed.

Example last_write_example :
  last_write "name" [("name", "A"); ("email", "e"); ("name", "B")] = Some "B".
Proof. reflexivity. Qed.

(** *** Basic facts about the handlers *)

Lemma formData_handleChange name value c :
  formData (handleChange name value c) = <[name := value]> (formData c).
Proof. reflexivity. Qed.

Lemma formState_handleChange name value c :
  formState (handleChange name value c) = formState c.
Proof. reflexivity. Qed.

Lemma timers_handleChange name value c :
  timers (handleChange name value c) = timers c.
Proof. reflexivity. Qed.

Lemma formData_handleSubmit c : formData (handleSubmit c) = formData c.
Proof. reflexivity. Qed.

Lemma formData_handleSubmit_resume s c :
  formData (handleSubmit_resume s c) = formData c.
Proof. by destruct s. Qed.

Lemma formData_fire c : formData (fire c) = formData c.
Proof.
  unfold fire. destruct (timers c) as [|t ts]; [done|].
  by rewrite formData_handleSubmit_resume.
Qed.

Lemma run_app evs1 evs2 c : run (evs1 ++ evs2) c = run evs2 (run evs1 c).
Proof. revert c. induction evs1 as [|e evs1 IH]; intros c; simpl; [done|apply IH]. Qed.

Lemma run_snoc evs e c : run (evs ++ [e]) c = step e (run evs c).
Proof. by rewrite run_app. Qed.

(** The controls, state by state. *)
Lemma step_Submit_idle fd ts :
  step Submit (Component fd idle ts) = Component fd loading (ts ++ [simulated_request]).
Proof. reflexivity. Qed.

Lemma step_Submit_error fd ts :
  step Submit (Component fd error ts) = Component fd loading (ts ++ [simulated_request]).
Proof. reflexivity. Qed.

Lemma step_Submit_loading fd ts :
  step Submit (Component fd loading ts) = Component fd loading ts.
Proof. reflexivity. Qed.

Lemma step_Submit_success fd ts :
  step Submit (Component fd success ts) = Component fd success ts.
Proof. reflexivity. Qed.

Lemma step_Change_rendered name value c :
  form_rendered c = true → step (Change name value) c = handleChange name value c.
Proof. by intros _. Qed.

(** *** The invariant of the reachable states *)

Lemma initial_consistent : consistent initial.
Proof. reflexivity. Qed.

Lemma step_consistent e c : consistent c → consistent (step e c).
Proof.
  destruct c as [fd s ts]. unfold consistent. simpl.
  destruct s; intros H; try done; subst ts; by destruct e.
Qed.

Lemma run_consistent evs c : consistent c → consistent (run evs c).
Proof.
  revert c. induction evs as [|e evs IH]; intros c H; simpl; [done|].
  by apply IH, step_consistent.
Qed.

Lemma reachable_consistent evs : consistent (run evs initial).
Proof. apply run_consistent, initial_consistent. Qed.

(** From a consistent state, one event either leaves [formState] as it is
    or takes one arrow of the state diagram. *)
Lemma step_transition e c :
  consistent c →
  formState (step e c) = formState c
  ∨ transition e (formState c) (formState (step e c)).
Proof.
  destruct c as [fd s ts]. unfold consistent. simpl.
  destruct s; intros H; try done; subst ts;
    destruct e; simpl; first [by left | right; constructor].
Qed.

(** *** The submission life cycle *)

(** C1.  [FormState] has exactly the four values idle, loading, success and
    error, and in every execution from the initial state each event either
    leaves the state as it is or takes one arrow of the diagram:
    idle → loading by submit, loading → success or loading → error when the
    submission settles, success → idle or error → idle by reset.  In
    particular success → loading never happens. *)
Theorem form_state_transitions_linear :
  (NoDup [idle; loading; success; error]
   ∧ ∀ s : FormState, s ∈ [idle; loading; success; error])
  ∧ (∀ evs e,
       formState (step e (run evs initial)) = formState (run evs initial)
       ∨ transition e (formState (run evs initial))
                      (formState (step e (run evs initial))))
  ∧ (∀ evs e,
       ¬ (formState (run evs initial) = success
          ∧ formState (step e (run evs initial)) = loading)).
Proof.
  split; [split|split].
  - compute_done.
  - intros []; compute_done.
  - intros evs e. apply step_transition, reachable_consistent.
  - intros evs e [Hs Hl].
    destruct (step_transition e _ (reachable_consistent evs)) as [Heq|Ht].
    + congruence.
    + rewrite Hs, Hl in Ht. inversion Ht.
Qed.

(** The submit control is the only guard: [handleSubmit] itself, called on a
    loading component, would queue a second timer. *)
Lemma handleSubmit_unguarded fd ts :
  handleSubmit (Component fd loading ts)
  = Component fd loading (ts ++ [simulated_request]).
Proof. reflexivity. Qed.

Lemma step_Submit_idempotent c : step Submit (step Submit c) = step Submit c.
Proof. by destruct c as [fd [] ts]. Qed.

(** C2.  A submit while the state is loading changes nothing at all: the
    state stays loading and no timer is added.  Hence a second submit right
    after a first is absorbed, and whatever happens afterwards the component
    behaves as if submit had been invoked once. *)
Theorem submit_while_loading_is_noop :
  (∀ fd ts, step Submit (Component fd loading ts) = Component fd loading ts)
  ∧ (∀ c, step Submit (step Submit c) = step Submit c)
  ∧ (∀ c evs, run (Submit :: Submit :: evs) c = run (Submit :: evs) c)
  ∧ (∀ evs, formState (run evs initial) = loading →
            step Submit (run evs initial) = run evs initial)
  ∧ run [Submit; Submit] initial = Component EMPTY_FORM loading [simulated_request].
Proof.
  split; [|split; [|split; [|split]]].
  - reflexivity.
  - apply step_Submit_idempotent.
  - intros c evs.
    change (run (Submit :: Submit :: evs) c)
      with (run evs (step Submit (step Submit c))).
    by rewrite step_Submit_idempotent.
  - intros evs H. destruct (run evs initial) as [fd s ts]. simpl in H. by subst s.
  - reflexivity.
Qed.

Lemma never_fails_handleChange name value c :
  never_fails c → never_fails (handleChange name value c).
Proof. by intros [??]. Qed.

Lemma never_fails_handleSubmit c : never_fails c → never_fails (handleSubmit c).
Proof.
  intros [_ Ht]. split; [done|]. simpl.
  apply Forall_app. split; [done|]. by constructor.
Qed.

Lemma never_fails_handleReset c : never_fails c → never_fails (handleReset c).
Proof. by intros [_ ?]. Qed.

Lemma never_fails_fire c : never_fails c → never_fails (fire c).
Proof.
  destruct c as [fd s [|t ts]]; [done|].
  unfold never_fails, fire. simpl. intros [Hs Ht].
  apply Forall_cons in Ht as [Hres Hts]. rewrite Hres. by split.
Qed.

Lemma never_fails_step e c : never_fails c → never_fails (step e c).
Proof.
  intros H. destruct e; simpl.
  - by apply never_fails_handleChange.
  - destruct (form_rendered c && negb (submit_disabled c));
      [by apply never_fails_handleSubmit|done].
  - destruct (reset_rendered c); [by apply never_fails_handleReset|done].
  - by apply never_fails_fire.
Qed.

Lemma never_fails_run evs c : never_fails c → never_fails (run evs c).
Proof.
  revert c. induction evs as [|e evs IH]; intros c H; simpl; [done|].
  by apply IH, never_fails_step.
Qed.

(** C3.  In every execution the state is never error: the simulated request
    is a timer that resolves its promise, every timer ever queued is such a
    one, so [handleSubmit] always resumes in its [try] block, and a pending
    submission settles as success; the [catch] block and the error message
    are never reached. *)
Theorem error_state_unreachable :
  on_timeout simulated_request = fulfilled
  ∧ ∀ evs,
      formState (run evs initial) ≠ error
      ∧ Forall (λ t, on_timeout t = fulfilled) (timers (run evs initial))
      ∧ error_shown (run evs initial) = false
      ∧ (formState (run evs initial) = loading →
         formState (step Timeout (run evs initial)) = success).
Proof.
  split; [done|]. intros evs.
  assert (never_fails (run evs initial)) as [Hs Ht].
  { apply never_fails_run. by split. }
  split; [done|]. split; [done|]. split.
  - unfold error_shown. rewrite bool_decide_eq_false_2 by done.
    apply andb_false_r.
  - intros Hl. pose proof (reachable_consistent evs) as Hc.
    unfold consistent in Hc. rewrite Hl in Hc.
    unfold step, fire. by rewrite Hc.
Qed.

(** *** Submission and the form data *)

(** The form data after a list of writes depends on the form data before
    them only. *)
Lemma formData_updateFields_state ws fd s1 ts1 s2 ts2 :
  formData (updateFields ws (Component fd s1 ts1))
  = formData (updateFields ws (Component fd s2 ts2)).
Proof.
  revert fd. induction ws as [|w ws IH]; intros fd; [done|]. apply IH.
Qed.

(** While a submission is in flight, the change events are the only ones
    that do anything before the timer fires: the submit button is disabled
    and there is no reset button. *)
Lemma loading_run evs fd :
  Timeout ∉ evs →
  run evs (Component fd loading [simulated_request])
  = Component
      (formData (updateFields (writes_of evs) (Component fd loading [simulated_request])))
      loading [simulated_request].
Proof.
  revert fd. induction evs as [|e evs IH]; intros fd Hno; [done|].
  apply not_elem_of_cons in Hno as [Hne Hno].
  destruct e as [name value| | |]; [| | |done].
  - exact (IH (<[name := value]> fd) Hno).
  - exact (IH fd Hno).
  - exact (IH fd Hno).
Qed.

(** Once the state is success and no timer is pending, the change events
    are the only ones that do anything until the reset button is clicked. *)
Lemma success_run evs fd :
  ClickReset ∉ evs →
  run evs (Component fd success [])
  = Component (formData (updateFields (writes_of evs) (Component fd success [])))
      success [].
Proof.
  revert fd. induction evs as [|e evs IH]; intros fd Hno; [done|].
  apply not_elem_of_cons in Hno as [Hne Hno].
  destruct e as [name value| | |]; [| |done|].
  - exact (IH (<[name := value]> fd) Hno).
  - exact (IH fd Hno).
  - exact (IH fd Hno).
Qed.

(** C4 (as amended).  Neither half of submit (the call up to its [await],
    the continuation when the timer fires) writes a field, in any state.
    So when submit is invoked on a component whose submit control is
    enabled and that has no submission in flight, the state becomes loading
    with the one timer of 1800 ms queued, and when that delay has elapsed
    the state is success and the form data is the one submit was invoked
    with, overwritten by exactly the writes of the change events that came
    during the delay (none of them: the very same form data).  After that,
    as long as reset is not invoked, the state stays success and the form
    data is changed by change events only, which the exiting form still
    takes; without them it stays as it is. *)
Theorem submit_keeps_form_data (c : component) :
  form_rendered c && negb (submit_disabled c) = true →
  timers c = [] →
  (∀ c', formData (step Submit c') = formData c'
         ∧ formData (step Timeout c') = formData c')
  ∧ formState (step Submit c) = loading
  ∧ timers (step Submit c) = [Timer fulfilled 1800]
  ∧ run [Submit; Timeout] c = Component (formData c) success []
  ∧ (∀ evs, Timeout ∉ evs →
       run (Submit :: evs ++ [Timeout]) c
       = Component (formData (updateFields (writes_of evs) c)) success [])
  ∧ (∀ evs, ClickReset ∉ evs →
       run evs (run [Submit; Timeout] c)
       = Component (formData (updateFields (writes_of evs) c)) success [])
  ∧ (∀ evs, ClickReset ∉ evs → writes_of evs = [] →
       run evs (run [Submit; Timeout] c) = Component (formData c) success []).
Proof.
  destruct c as [fd s ts]. intros Hen Hts. simpl in Hts. subst ts.
  assert (step Submit (Component fd s []) = Component fd loading [simulated_request])
    as Hsub by (by destruct s).
  assert (run [Submit; Timeout] (Component fd s []) = Component fd success [])
    as Hrun by (by destruct s).
  rewrite Hrun, Hsub. split; [|split; [|split; [|split; [|split; [|split]]]]].
  - intros c'. split; [|apply formData_fire].
    simpl. by destruct (form_rendered c' && negb (submit_disabled c')).
  - done.
  - done.
  - done.
  - intros evs Hno.
    change (run (Submit :: ?l) ?c) with (run l (step Submit c)).
    rewrite Hsub, run_snoc, loading_run by done.
    by rewrite (formData_updateFields_state _ fd loading [simulated_request] s []).
  - intros evs Hno. rewrite success_run by done.
    by rewrite (formData_updateFields_state _ fd success [] s []).
  - intros evs Hno Hw. rewrite success_run by done. by rewrite Hw.
Qed.

Lemma submit_keeps_form_data_witness :
  form_rendered ana_form && negb (submit_disabled ana_form) = true
  ∧ timers ana_form = []
  ∧ formState (step Submit ana_form) = loading
  ∧ run [Submit; Timeout] ana_form = Component (formData ana_form) success [].
Proof.
  split; [reflexivity|]. split; [reflexivity|].
  destruct (submit_keeps_form_data ana_form eq_refl eq_refl)
    as (_ & Hl & _ & Hrun & _).
  by split.
Defined.

(** C4 as first stated fails in two executions of the scenario form.  A
    keystroke in the exiting form, right after the submission resolved,
    changes the form data in the success state although reset was not
    invoked; and a keystroke during the delay makes the form data at
    resolution differ from the form data submit was invoked with. *)
Lemma form_data_changes_without_reset :
  form_rendered ana_form && negb (submit_disabled ana_form) = true
  ∧ timers ana_form = []
  ∧ formState (run [Submit; Timeout] ana_form) = success
  ∧ (ClickReset ∉ [Change "name" "Bia"])
  ∧ formState (run [Change "name" "Bia"] (run [Submit; Timeout] ana_form)) = success
  ∧ formData (run [Change "name" "Bia"] (run [Submit; Timeout] ana_form))
    ≠ formData (run [Submit; Timeout] ana_form)
  ∧ formState (run [Submit; Change "name" "Bia"; Timeout] ana_form) = success
  ∧ formData (run [Submit; Change "name" "Bia"; Timeout] ana_form)
    ≠ formData ana_form.
Proof.
  split; [reflexivity|]. split; [reflexivity|]. split; [reflexivity|].
  split; [apply not_elem_of_cons; split; [discriminate|apply not_elem_of_nil]|].
  split; [reflexivity|]. split; [|split; [reflexivity|]].
  - intros H. apply (f_equal (λ m : FormData, m !! "name")) in H.
    vm_compute in H. discriminate H.
  - intros H. apply (f_equal (λ m : FormData, m !! "name")) in H.
    vm_compute in H. discriminate H.
Qed.

(** *** Reset *)

(** C5.  [handleReset] yields state idle and form data [EMPTY_FORM] from
    every component state, whatever was written before; [EMPTY_FORM] has
    exactly the five declared fields, each the empty string.  The button
    that calls it is offered in the success state. *)
Theorem reset_yields_idle_and_empty :
  (∀ c, formState (handleReset c) = idle
        ∧ formData (handleReset c) = EMPTY_FORM
        ∧ timers (handleReset c) = timers c)
  ∧ (∀ fd ts, step ClickReset (Component fd success ts) = Component EMPTY_FORM idle ts)
  ∧ dom EMPTY_FORM = list_to_set declared_fields
  ∧ size EMPTY_FORM = 5
  ∧ Forall (λ k, EMPTY_FORM !! k = Some "") declared_fields.
Proof.
  split; [done|]. split; [done|]. split; [|split].
  - unfold EMPTY_FORM, declared_fields. rewrite dom_list_to_map_L. done.
  - reflexivity.
  - repeat constructor.
Qed.

(** *** Field updates *)

Lemma updateFields_cons w ws c :
  updateFields (w :: ws) c = updateFields ws (handleChange w.1 w.2 c).
Proof. reflexivity. Qed.

Lemma updateFields_frame ws c :
  formState (updateFields ws c) = formState c
  ∧ timers (updateFields ws c) = timers c.
Proof.
  revert c. induction ws as [|w ws IH]; intros c; [done|].
  rewrite updateFields_cons. exact (IH (handleChange w.1 w.2 c)).
Qed.

Lemma updateFields_lookup ws c k :
  formData (updateFields ws c) !! k
  = match last_write k ws with
    | Some v => Some v
    | None => formData c !! k
    end.
Proof.
  revert c. induction ws as [|[n v] ws IH]; intros c; [done|].
  rewrite updateFields_cons, IH. cbn [last_write fst snd].
  destruct (last_write k ws) as [v'|]; [done|].
  rewrite formData_handleChange.
  destruct (decide (n = k)) as [->|Hne].
  - apply lookup_insert_eq.
  - by apply lookup_insert_ne.
Qed.

(** While the form is in the document, the change events of the user are
    exactly calls of [handleChange]. *)
Lemma run_changes ws c :
  form_rendered c = true →
  run (map (λ w, Change w.1 w.2) ws) c = updateFields ws c.
Proof.
  revert c. induction ws as [|w ws IH]; intros c Hr; [done|].
  simpl. apply IH. exact Hr.
Qed.

(** C6.  After any sequence of [updateField] calls each field holds the
    value of the last write to it, and a field that was never written holds
    what it held before (the empty string, from the initial form); a single
    call stores its value as given, whatever the name and the value, and
    leaves every other field, the state and the timers as they were. *)
Theorem updateField_last_write_wins :
  (∀ ws c k,
     formData (updateFields ws c) !! k
     = match last_write k ws with
       | Some v => Some v
       | None => formData c !! k
       end)
  ∧ (∀ ws k, k ∈ declared_fields → last_write k ws = None →
             formData (updateFields ws initial) !! k = Some "")
  ∧ (∀ name value c, formData (handleChange name value c) !! name = Some value)
  ∧ (∀ name value c k, k ≠ name →
       formData (handleChange name value c) !! k = formData c !! k)
  ∧ (∀ ws c, formState (updateFields ws c) = formState c
             ∧ timers (updateFields ws c) = timers c)
  ∧ (∀ ws c, form_rendered c = true →
             run (map (λ w, Change w.1 w.2) ws) c = updateFields ws c).
Proof.
  split; [apply updateFields_lookup|].
  split; [|split; [|split; [|split]]].
  - intros ws k Hk Hnone. rewrite updateFields_lookup, Hnone.
    unfold declared_fields in Hk.
    repeat (apply elem_of_cons in Hk as [->|Hk]; [reflexivity|]).
    by apply elem_of_nil in Hk.
  - intros name value c. rewrite formData_handleChange. apply lookup_insert_eq.
  - intros name value c k Hne. rewrite formData_handleChange.
    by apply lookup_insert_ne.
  - apply updateFields_frame.
  - apply run_changes.
Qed.

(** Fields typed while a submission is in flight are written by
    [handleChange] as usual (the inputs stay enabled, only the submit button
    is disabled); the submission adds nothing of its own. *)
Lemma edits_while_loading_are_kept ws fd :
  run (Submit :: map (λ w, Change w.1 w.2) ws ++ [Timeout]) (Component fd idle [])
  = Component (formData (updateFields ws (Component fd idle []))) success [].
Proof.
  change (run (Submit :: ?l) ?c) with (run l (step Submit c)).
  rewrite run_snoc, step_Submit_idle, run_changes by done.
  destruct (updateFields_frame ws (Component fd loading ([] ++ [simulated_request])))
    as [Hs Ht].
  assert (formData (updateFields ws (Component fd loading ([] ++ [simulated_request])))
          = formData (updateFields ws (Component fd idle []))) as Hd.
  { apply map_eq. intros k. by rewrite !updateFields_lookup. }
  destruct (updateFields ws (Component fd loading _)) as [fd' s' ts'].
  simpl in *. by subst.
Qed.

(** C8.  [handleChange] writes under whatever name the event carries.  For a
    name outside the five declared fields of a form that has exactly those,
    the call succeeds and the result has six properties: the unknown name
    with the given value, and the five declared ones unchanged. *)
Theorem handleChange_unknown_name_extends (name value : string) (c : component) :
  name ∉ declared_fields →
  dom (formData c) = list_to_set declared_fields →
  formData (handleChange name value c) !! name = Some value
  ∧ dom (formData (handleChange name value c)) = {[name]} ∪ list_to_set declared_fields
  ∧ size (formData (handleChange name value c)) = 6
  ∧ (∀ k, k ≠ name → formData (handleChange name value c) !! k = formData c !! k)
  ∧ (form_rendered c = true →
     step (Change name value) c = handleChange name value c).
Proof.
  intros Hname Hdom. rewrite formData_handleChange.
  assert (formData c !! name = None) as Hnone.
  { apply not_elem_of_dom. rewrite Hdom. by rewrite elem_of_list_to_set. }
  split; [apply lookup_insert_eq|].
  split; [by rewrite dom_insert_L, Hdom|].
  split.
  - rewrite map_size_insert_None by done.
    rewrite <- size_dom, Hdom. reflexivity.
  - split; [|apply step_Change_rendered].
    intros k Hk. by apply lookup_insert_ne.
Qed.

Lemma handleChange_unknown_name_extends_witness :
  ("company" ∉ declared_fields)
  ∧ dom (formData initial) = list_to_set declared_fields
  ∧ formData (handleChange "company" "ACME" initial) !! "company" = Some "ACME"
  ∧ size (formData (handleChange "company" "ACME" initial)) = 6.
Proof.
  assert ("company" ∉ declared_fields) as Hname by compute_done.
  assert (dom (formData initial) = list_to_set declared_fields) as Hdom.
  { simpl. unfold EMPTY_FORM. rewrite dom_list_to_map_L. reflexivity. }
  split; [exact Hname|]. split; [exact Hdom|].
  destruct (handleChange_unknown_name_extends "company" "ACME" initial Hname Hdom)
    as (Hl & _ & Hsz & _).
  by split.
Defined.

End Contact.

(* ===================================================================== *)
(** ** Portfolio.tsx: the marquee track                                   *)
(* ===================================================================== *)

Module Portfolio.

(** [interface PortfolioItem] of src/lib/constants.ts. *)
Record PortfolioItem : Set := Item {
  id       : string;
  title    : string;
  category : string;
  image    : string;
  location : string;
}.

#[export] Instance PortfolioItem_eq_dec : EqDecision PortfolioItem.
Proof. solve_decision. Defined.

(** [export const PORTFOLIO_ITEMS: PortfolioItem[]] *)
Definition PORTFOLIO_ITEMS : list PortfolioItem := [
  Item "p01" "Skyline de Curitiba" "Fotografia Aérea"
    "https://images.unsplash.com/photo-1477959858617-67f85cf4f1df?w=700&h=480&q=85&auto=format&fit=crop"
    "Curitiba, PR";
  Item "p02" "Vistoria de Torre Industrial" "Vistoria Técnica"
    "https://images.unsplash.com/photo-1473968512647-3e447244af8f?w=700&h=480&q=85&auto=format&fit=crop"
    "São Paulo, SP";
  Item "p03" "Lançamento Residencial Alto do Iguaçu" "Lançamento Imobiliário"
    "https://images.unsplash.com/photo-1512917774080-9991b1c3602a?w=700&h=480&q=85&auto=format&fit=crop"
    "Curitiba, PR";
  Item "p04" "Festival Gastronômico Curitiba" "Eventos"
    "https://images.unsplash.com/photo-1429962714451-bb934ecdc4ec?w=700&h=480&q=85&auto=format&fit=crop"
    "Curitiba, PR";
  Item "p05" "Maratona Internacional de Buenos Aires" "Eventos Esportivos"
    "https://images.unsplash.com/photo-1569336415962-a4bd9f69cd83?w=700&h=480&q=85&auto=format&fit=crop"
    "Buenos Aires, ARG";
  Item "p06" "Serra Gaúcha Vista do Alto" "Fotografia Aérea"
    "https://images.unsplash.com/photo-1506905925346-21bda4d32df4?w=700&h=480&q=85&auto=format&fit=crop"
    "Bento Gonçalves, RS";
  Item "p07" "Inspeção de Usina Solar" "Vistoria Técnica"
    "https://images.unsplash.com/photo-1486325212027-8081e485255e?w=700&h=480&q=85&auto=format&fit=crop"
    "Pernambuco, PE";
  Item "p08" "Vídeo Institucional Prefeitura de Curitiba" "Institucional"
    "https://images.unsplash.com/photo-1486406869267-3f6a0f7d3a4c?w=700&h=480&q=85&auto=format&fit=crop"
    "Curitiba, PR";
  Item "p09" "Campeonato de Motocross" "Eventos Esportivos"
    "https://images.unsplash.com/photo-1568702846914-96b305d2aaeb?w=700&h=480&q=85&auto=format&fit=crop"
    "Florianópolis, SC";
  Item "p10" "Condomínio Horizontal Vista Verde" "Lançamento Imobiliário"
    "https://images.unsplash.com/photo-1519125323398-675f0ddb6308?w=700&h=480&q=85&auto=format&fit=crop"
    "Londrina, PR"
].

(** What [PortfolioCard] renders, as far as the two props decide it: the
    item shown, [aria-hidden={isClone}] on the card, and the image's
    [alt={isClone ? '' : `${item.title} — DroneLENS`}]. *)
Record card : Set := Card {
  card_item   : PortfolioItem;
  aria_hidden : bool;
  alt         : string;
}.

#[export] Instance card_eq_dec : EqDecision card.
Proof. solve_decision. Defined.

(** [function PortfolioCard({ item, isClone = false })] *)
Definition PortfolioCard (item : PortfolioItem) (isClone : bool) : card :=
  Card item isClone (if isClone then "" else title item ++ " — DroneLENS").

(** The children of the track [<div>], each with its React key:
<<
      {PORTFOLIO_ITEMS.map((item) => (
        <PortfolioCard key={item.id} item={item} />))}
      {PORTFOLIO_ITEMS.map((item) => (
        <PortfolioCard key={`clone-${item.id}`} item={item} isClone />))}
>> *)
Definition marquee_track (items : list PortfolioItem) : list (string * card) :=
  (map (λ item, (id item, PortfolioCard item false)) items
   ++ map (λ item, (("clone-" ++ id item)%string, PortfolioCard item true)) items)%list.

Definition track : list (string * card) := marquee_track PORTFOLIO_ITEMS.

Example first_card :
  track !! 0%nat
  = Some ("p01", Card (Item "p01" "Skyline de Curitiba" "Fotografia Aérea"
      "https://images.unsplash.com/photo-1477959858617-67f85cf4f1df?w=700&h=480&q=85&auto=format&fit=crop"
      "Curitiba, PR") false "Skyline de Curitiba — DroneLENS").
Proof. reflexivity. Qed.

Lemma marquee_track_items items :
  map (λ kc, card_item kc.2) (marquee_track items) = (items ++ items)%list.
Proof.
  unfold marquee_track. rewrite map_app, !map_map. simpl.
  by rewrite map_id.
Qed.

Lemma marquee_track_length items :
  length (marquee_track items) = (2 * length items)%nat.
Proof. unfold marquee_track. rewrite length_app, !length_map. lia. Qed.

Lemma marquee_track_original items i item :
  items !! i = Some item →
  marquee_track items !! i = Some (id item, PortfolioCard item false).
Proof.
  intros H. unfold marquee_track. rewrite lookup_app_l.
  - by rewrite list_lookup_fmap, H.
  - rewrite length_map. by eapply lookup_lt_Some.
Qed.

Lemma marquee_track_clone items i item :
  items !! i = Some item →
  marquee_track items !! (length items + i)%nat
  = Some ("clone-" ++ id item, PortfolioCard item true).
Proof.
  intros H. unfold marquee_track. rewrite lookup_app_r; rewrite length_map; [|lia].
  replace (length items + i - length items)%nat with i by lia.
  by rewrite list_lookup_fmap, H.
Qed.

(** C7.  The track holds the ten items of [PORTFOLIO_ITEMS] twice in the
    same order: twenty cards whose items are the list followed by itself;
    card [i] is the original of item [i] and card [10 + i] its clone; the
    first ten are not hidden, the last ten are clones, hidden from
    assistive technology ([aria-hidden], empty [alt]). *)
Theorem track_is_items_twice :
  length PORTFOLIO_ITEMS = 10%nat
  ∧ length track = 20%nat
  ∧ map (λ kc, card_item kc.2) track = (PORTFOLIO_ITEMS ++ PORTFOLIO_ITEMS)%list
  ∧ (∀ i item, PORTFOLIO_ITEMS !! i = Some item →
       track !! i = Some (id item, PortfolioCard item false)
       ∧ track !! (10 + i)%nat = Some ("clone-" ++ id item, PortfolioCard item true))
  ∧ Forall (λ kc, aria_hidden kc.2 = false) (take 10 track)
  ∧ Forall (λ kc, aria_hidden kc.2 = true ∧ alt kc.2 = "") (drop 10 track)
  ∧ NoDup (map fst track).
Proof.
  split; [reflexivity|]. split; [reflexivity|].
  split; [apply marquee_track_items|].
  split; [|split; [|split]].
  - intros i item H. split.
    + by apply marquee_track_original.
    + by apply (marquee_track_clone PORTFOLIO_ITEMS).
  - repeat constructor.
  - repeat constructor.
  - compute_done.
Qed.

End Portfolio.

(* ===================================================================== *)
(** ** ThemeToggle.tsx                                                     *)
(* ===================================================================== *)

Module ThemeToggle.

(** [const { theme, setTheme } = useTheme()]: the theme is a string or
    [undefined]; [setTheme] stores the string it is given. *)
Definition setTheme (value : string) (theme : option string) : option string :=
  Some value.

(** [const isDark = theme === 'dark'] *)
Definition isDark (theme : option string) : bool :=
  bool_decide (theme = Some "dark").

(** [onClick={() => setTheme(isDark ? 'light' : 'dark')}] *)
Definition onClick (theme : option string) : option string :=
  setTheme (if isDark theme then "light" else "dark") theme.

Lemma onClick_dark : onClick (Some "dark") = Some "light".
Proof. reflexivity. Qed.

Lemma onClick_not_dark theme : theme ≠ Some "dark" → onClick theme = Some "dark".
Proof.
  intros H. unfold onClick, isDark, setTheme.
  by rewrite bool_decide_eq_false_2.
Qed.

(** C9.  One click sets the theme to light exactly when it was dark, and to
    dark from every other value (light, system, unset, ...); so after a
    click the theme is light or dark, and two clicks give back the original
    theme if and only if it was light or dark. *)
Theorem theme_toggle_click :
  (∀ theme, onClick theme = Some "light" ↔ theme = Some "dark")
  ∧ (∀ theme, theme ≠ Some "dark" → onClick theme = Some "dark")
  ∧ (onClick (Some "light") = Some "dark"
     ∧ onClick (Some "system") = Some "dark"
     ∧ onClick None = Some "dark")
  ∧ (∀ theme, onClick theme = Some "light" ∨ onClick theme = Some "dark")
  ∧ (∀ theme, onClick (onClick theme) = theme
              ↔ (theme = Some "light" ∨ theme = Some "dark")).
Proof.
  split; [|split; [|split; [|split]]].
  - intros theme. split.
    + intros H. destruct (decide (theme = Some "dark")) as [|Hne]; [done|].
      rewrite (onClick_not_dark _ Hne) in H. discriminate H.
    + intros ->. apply onClick_dark.
  - apply onClick_not_dark.
  - done.
  - intros theme. destruct (decide (theme = Some "dark")) as [->|Hne].
    + by left.
    + right. by apply onClick_not_dark.
  - intros theme. split.
    + intros H. destruct (decide (theme = Some "dark")) as [->|Hne]; [by right|].
      left. rewrite (onClick_not_dark _ Hne) in H. by rewrite <- H.
    + by intros [->| ->].
Qed.

End ThemeToggle.

(* ===================================================================== *)
(** ** Testimonials.tsx: StarRating                                        *)
(* ===================================================================== *)

Module Testimonials.

(** A JS [number] as far as [StarRating] looks at it: the function only
    compares it with the array indices 0..4, and that comparison is exact.
    Every finite number is a rational; the three others are kept apart. *)
Inductive number : Type :=
  | Finite (q : Q)
  | PosInfinity
  | NegInfinity
  | NaN.

(** A whole-number rating, such as the [rating: 5] of the TESTIMONIALS table. *)
Definition of_int (z : Z) : number := Finite (inject_Z z).

(** [i < rating] for an array index [i]: false when [rating] is [NaN]. *)
Definition index_lt (i : nat) (rating : number) : bool :=
  match rating with
  | Finite q => negb (Qle_bool q (inject_Z (Z.of_nat i)))
  | PosInfinity => true
  | NegInfinity | NaN => false
  end.

(** One [<Star key={i} className={...}/>]: its key and whether it got the
    filled class ['fill-brand-gold text-brand-gold'] or the unfilled one. *)
Record star : Set := Star { key : nat; filled : bool }.

#[export] Instance star_eq_dec : EqDecision star.
Proof. solve_decision. Defined.

(** [function StarRating({ rating })]:
    [Array.from({ length: 5 }).map((_, i) => <Star ... i < rating ... />)]. *)
Definition StarRating (rating : number) : list star :=
  imap (λ i _, Star i (index_lt i rating)) (replicate 5 ()).

(** [Math.min(Math.max(rating, 0), 5)], the rating clamped to 0..5. *)
Definition clamp (rating : number) : number :=
  match rating with
  | Finite q => Finite (Qmin (Qmax q 0) 5)
  | PosInfinity => Finite 5
  | NegInfinity => Finite 0
  | NaN => NaN
  end.

Example rating_3 :
  StarRating (of_int 3)
  = [Star 0 true; Star 1 true; Star 2 true; Star 3 false; Star 4 false].
Proof. reflexivity. Qed.

Example rating_minus_2 : filled <$> StarRating (of_int (-2)) = replicate 5 false.
Proof. reflexivity. Qed.

Example rating_NaN : filled <$> StarRating NaN = replicate 5 false.
Proof. reflexivity. Qed.

Lemma StarRating_unfold rating :
  StarRating rating
  = [Star 0 (index_lt 0 rating); Star 1 (index_lt 1 rating);
     Star 2 (index_lt 2 rating); Star 3 (index_lt 3 rating);
     Star 4 (index_lt 4 rating)].
Proof. reflexivity. Qed.

Lemma index_lt_true i q :
  (inject_Z (Z.of_nat i) < q)%Q → index_lt i (Finite q) = true.
Proof.
  intros H. unfold index_lt. apply negb_true_iff, not_true_iff_false.
  rewrite Qle_bool_iff. by apply Qlt_not_le.
Qed.

Lemma index_lt_false i q :
  (q <= inject_Z (Z.of_nat i))%Q → index_lt i (Finite q) = false.
Proof.
  intros H. unfold index_lt. apply negb_false_iff. by apply Qle_bool_iff.
Qed.

Lemma index_lt_of_int i z :
  index_lt i (of_int z) = bool_decide (Z.of_nat i < z)%Z.
Proof.
  destruct (decide (Z.of_nat i < z)%Z) as [H|H].
  - rewrite bool_decide_eq_true_2 by done.
    apply index_lt_true. by rewrite <- Zlt_Qlt.
  - rewrite bool_decide_eq_false_2 by done.
    apply index_lt_false. rewrite <- Zle_Qle. lia.
Qed.

(** Comparing an index below 5 with the rating or with the clamped rating
    gives the same answer. *)
Lemma index_lt_clamp i rating :
  (i < 5)%nat → index_lt i (clamp rating) = index_lt i rating.
Proof.
  intros Hi. destruct rating as [q| | |]; try done.
  - assert (0 <= inject_Z (Z.of_nat i) < 5)%Q as [H0 H5].
    { split; [rewrite <- (Zle_Qle 0)|rewrite <- (Zlt_Qlt _ 5)]; lia. }
    simpl. f_equal. apply eq_true_iff_eq. rewrite !Qle_bool_iff.
    rewrite Q.min_le_iff, Q.max_lub_iff. split.
    + intros [[H _]|H]; [done|]. exfalso. by apply (Qlt_not_le _ _ H5).
    + intros H. by left.
  - simpl. apply index_lt_true. rewrite <- (Zlt_Qlt _ 5). lia.
  - simpl. apply index_lt_false. rewrite <- (Zle_Qle 0). lia.
Qed.

Lemma StarRating_clamp rating : StarRating (clamp rating) = StarRating rating.
Proof.
  rewrite !StarRating_unfold. by rewrite !index_lt_clamp by lia.
Qed.

(** Rational arithmetic over the indices, written as literals. *)
Ltac index_lra :=
  cbv [inject_Z Z.of_nat Pos.of_succ_nat Pos.succ] in *; lra.

(** The filled stars come first. *)
Lemma StarRating_prefix rating :
  ∃ k, (k ≤ 5)%nat
       ∧ filled <$> StarRating rating
         = (replicate k true ++ replicate (5 - k) false)%list.
Proof.
  destruct rating as [q| | |];
    [|by exists 5%nat; split; [lia|]
      |by exists 0%nat; split; [lia|]
      |by exists 0%nat; split; [lia|]].
  rewrite StarRating_unfold.
  destruct (Qlt_le_dec (inject_Z (Z.of_nat 4)) q) as [H4|H4];
    [exists 5%nat|
  destruct (Qlt_le_dec (inject_Z (Z.of_nat 3)) q) as [H3|H3];
    [exists 4%nat|
  destruct (Qlt_le_dec (inject_Z (Z.of_nat 2)) q) as [H2|H2];
    [exists 3%nat|
  destruct (Qlt_le_dec (inject_Z (Z.of_nat 1)) q) as [H1|H1];
    [exists 2%nat|
  destruct (Qlt_le_dec (inject_Z (Z.of_nat 0)) q) as [H0|H0];
    [exists 1%nat|exists 0%nat]]]]];
    (split; [lia|]);
    repeat first
      [ rewrite index_lt_true by index_lra
      | rewrite index_lt_false by index_lra ];
    reflexivity.
Qed.

Lemma StarRating_of_int z :
  filled <$> StarRating (of_int z)
  = (replicate (Z.to_nat (Z.min (Z.max z 0) 5)) true
     ++ replicate (5 - Z.to_nat (Z.min (Z.max z 0) 5)) false)%list.
Proof.
  rewrite StarRating_unfold, !index_lt_of_int.
  assert (z ≤ 0 ∨ z = 1 ∨ z = 2 ∨ z = 3 ∨ z = 4 ∨ 5 ≤ z)%Z as Hz by lia.
  destruct Hz as [H | [-> | [-> | [-> | [-> | H]]]]]; try reflexivity.
  - rewrite Z.max_r, Z.min_l by lia.
    by rewrite !bool_decide_eq_false_2 by lia.
  - rewrite Z.max_l, Z.min_r by lia.
    by rewrite !bool_decide_eq_true_2 by lia.
Qed.

(** C10.  [StarRating] renders five stars for every rating, filled ones
    first; star [i] (counted from 0) is filled exactly when [i] is below
    [min (max rating 0) 5], so for a whole-number rating the first
    [min (max rating 0) 5] stars are filled and the others are not.  A
    rating above 5 renders as 5 does, a rating of zero or less renders no
    filled star, and no number makes the function fail. *)
Theorem star_rating_clamps :
  (∀ rating,
     length (StarRating rating) = 5%nat
     ∧ key <$> StarRating rating = [0; 1; 2; 3; 4]%nat
     ∧ filled <$> StarRating rating
       = (λ i, index_lt i (clamp rating)) <$> [0; 1; 2; 3; 4]%nat
     ∧ ∃ k, (k ≤ 5)%nat
            ∧ filled <$> StarRating rating
              = (replicate k true ++ replicate (5 - k) false)%list)
  ∧ (∀ z : Z,
       filled <$> StarRating (of_int z)
       = (replicate (Z.to_nat (Z.min (Z.max z 0) 5)) true
          ++ replicate (5 - Z.to_nat (Z.min (Z.max z 0) 5)) false)%list)
  ∧ (∀ q, (5 < q)%Q → StarRating (Finite q) = StarRating (of_int 5))
  ∧ StarRating PosInfinity = StarRating (of_int 5)
  ∧ (∀ q, (q <= 0)%Q → filled <$> StarRating (Finite q) = replicate 5 false)
  ∧ filled <$> StarRating NegInfinity = replicate 5 false
  ∧ filled <$> StarRating NaN = replicate 5 false.
Proof.
  split; [|split; [|split; [|split; [|split; [|split]]]]]; try reflexivity.
  - intros rating. split; [reflexivity|]. split; [reflexivity|]. split.
    + rewrite <- (StarRating_clamp rating). reflexivity.
    + apply StarRating_prefix.
  - apply StarRating_of_int.
  - intros q H. rewrite !StarRating_unfold.
    rewrite !index_lt_true by index_lra. reflexivity.
  - intros q H. rewrite StarRating_unfold.
    rewrite !index_lt_false by index_lra. reflexivity.
Qed.

End Testimonials.

(* ===================================================================== *)
(** ** Contact.tsx: further properties of the lead form                   *)
(* ===================================================================== *)

Module ContactLifecycle.
Import Contact.

(** The change events of a list of writes, in order. *)
Definition changes (ws : list (string * string)) : list event :=
  map (λ w, Change w.1 w.2) ws.

(** [value={formData.name}] and the like: the [value] prop an input of the
    form receives; [None] is JS [undefined], which would make the input
    uncontrolled. *)
Definition input_value (field : string) (c : component) : option string :=
  formData c !! field.

(** Every field the form has an input for is a property of the form data. *)
Definition inputs_controlled (c : component) : Prop :=
  Forall (λ field, is_Some (input_value field c)) declared_fields.

(** A way back to the initial component through the rendered controls:
    from success the reset button; before that the submission runs through
    first, since the form itself offers no reset button. *)
Definition recovery (c : component) : list event :=
  match formState c with
  | idle | error => [Submit; Timeout; ClickReset]
  | loading => [Timeout; ClickReset]
  | success => [ClickReset]
  end.

(** The component right after a rejected submission: what the [catch] block
    of [handleSubmit] leaves behind. *)
Definition after_rejection (fd : FormData) : component :=
  handleSubmit_resume rejected (Component fd loading []).

Lemma inputs_controlled_dom c :
  inputs_controlled c ↔ list_to_set declared_fields ⊆ dom (formData c).
Proof.
  unfold inputs_controlled, input_value. rewrite Forall_forall. split.
  - intros H k Hk. apply elem_of_dom, H. by apply elem_of_list_to_set in Hk.
  - intros H k Hk. apply elem_of_dom, H. by apply elem_of_list_to_set.
Qed.

Lemma inputs_controlled_step e c : inputs_controlled c → inputs_controlled (step e c).
Proof.
  rewrite !inputs_controlled_dom. intros H. destruct e; simpl.
  - unfold spread_with. rewrite dom_insert_L.
    etrans; [exact H|]. apply union_subseteq_r.
  - by destruct (form_rendered c && negb (submit_disabled c)).
  - destruct (reset_rendered c); [|done]. simpl.
    unfold EMPTY_FORM. by rewrite dom_list_to_map_L.
  - by rewrite formData_fire.
Qed.

(** X1.  In every execution all five inputs stay controlled: each declared
    field is a property of the form data at every moment, whatever names
    and values the change events carried. *)
Theorem inputs_stay_controlled (evs : list event) :
  inputs_controlled (run evs initial).
Proof.
  assert (∀ c, inputs_controlled c → inputs_controlled (run evs c)) as H.
  { induction evs as [|e evs IH]; intros c Hc; [done|].
    simpl. by apply IH, inputs_controlled_step. }
  apply H. repeat constructor; by eexists.
Qed.

(** X2.  At most one submission is in flight: in every execution at most
    one timer is pending, one is pending exactly while the state is
    loading, and it is the simulated request of 1800 ms. *)
Theorem single_submission_in_flight (evs : list event) :
  (length (timers (run evs initial)) ≤ 1)%nat
  ∧ (formState (run evs initial) = loading
     ↔ timers (run evs initial) = [Timer fulfilled 1800])
  ∧ (formState (run evs initial) ≠ loading ↔ timers (run evs initial) = []).
Proof.
  pose proof (reachable_consistent evs) as H. unfold consistent in H.
  destruct (run evs initial) as [fd s ts]. simpl in *.
  destruct s; try done; subst ts; simpl; (split; [lia|]); split; split; done.
Qed.

Lemma run_changes_idle ws fd :
  run (changes ws) (Component fd idle [])
  = Component (formData (updateFields ws (Component fd idle []))) idle [].
Proof.
  unfold changes. rewrite run_changes by done.
  destruct (updateFields_frame ws (Component fd idle [])) as [Hs Ht].
  destruct (updateFields ws (Component fd idle [])) as [fd' s' ts'].
  simpl in *. by subst.
Qed.

Lemma run_changes_loading ws fd ts :
  run (changes ws) (Component fd loading ts)
  = Component (formData (updateFields ws (Component fd loading ts))) loading ts.
Proof.
  unfold changes. rewrite run_changes by done.
  destruct (updateFields_frame ws (Component fd loading ts)) as [Hs Ht].
  destruct (updateFields ws (Component fd loading ts)) as [fd' s' ts'].
  simpl in *. by subst.
Qed.

(** X3.  A whole life cycle ends where it began: whatever is typed before
    the submission and during the delay, after submit, the timer and the
    reset button, the component is exactly the initial one; nothing of the
    lead's data is kept. *)
Theorem lifecycle_returns_to_initial (ws1 ws2 : list (string * string)) :
  run (changes ws1 ++ Submit :: changes ws2 ++ [Timeout; ClickReset]) initial
  = initial.
Proof.
  rewrite run_app. unfold initial at 1. rewrite run_changes_idle.
  change (run (Submit :: ?l) ?c) with (run l (step Submit c)).
  rewrite step_Submit_idle, run_app, run_changes_loading. reflexivity.
Qed.

Lemma step_keeps_properties e c :
  e ≠ ClickReset → dom (formData c) ⊆ dom (formData (step e c)).
Proof.
  intros He. destruct e as [name value| | |]; [| |done|].
  - simpl. unfold spread_with. rewrite dom_insert_L. apply union_subseteq_r.
  - simpl. by destruct (form_rendered c && negb (submit_disabled c)).
  - by rewrite formData_fire.
Qed.

(** X4.  The form can always be brought back: from every state an execution
    reaches, at most three events through the rendered controls lead to the
    initial component.  And only the reset button ever removes a property
    from the form data: after any other event every property that was
    there is still there. *)
Theorem initial_always_recoverable (evs : list event) :
  run (recovery (run evs initial)) (run evs initial) = initial
  ∧ (length (recovery (run evs initial)) ≤ 3)%nat
  ∧ (∀ e c, e ≠ ClickReset → dom (formData c) ⊆ dom (formData (step e c))).
Proof.
  split; [|split; [|apply step_keeps_properties]].
  - pose proof (reachable_consistent evs) as H. unfold consistent in H.
    destruct (run evs initial) as [fd s ts]. simpl in *.
    by destruct s; try done; subst ts.
  - unfold recovery. destruct (formState (run evs initial)); simpl; lia.
Qed.

(** X5.  Writes to different fields commute, and a second write to the same
    field replaces the first: the component after two changes does not
    depend on the order in which two different inputs were edited. *)
Theorem handleChange_commutes (n1 v1 n2 v2 : string) (c : component) :
  n1 ≠ n2 →
  handleChange n1 v1 (handleChange n2 v2 c) = handleChange n2 v2 (handleChange n1 v1 c)
  ∧ handleChange n1 v2 (handleChange n1 v1 c) = handleChange n1 v2 c.
Proof.
  intros Hne. unfold handleChange, setFormData, spread_with. simpl. split.
  - f_equal. by apply insert_insert_ne.
  - f_equal. apply insert_insert_eq.
Qed.

Lemma handleChange_commutes_witness :
  "name" ≠ "email"
  ∧ handleChange "name" "Ana" (handleChange "email" "ana@x.com" initial)
    = handleChange "email" "ana@x.com" (handleChange "name" "Ana" initial).
Proof.
  assert ("name" ≠ "email") as Hne by discriminate.
  split; [exact Hne|].
  exact (proj1 (handleChange_commutes "name" "Ana" "email" "ana@x.com" initial Hne)).
Defined.

(** X6.  Were a submission ever rejected, the [catch] block would leave the
    form usable: the error message is shown above an enabled submit button,
    the fields keep their values and stay editable, no reset is offered;
    a new submit hides the message and, when its timer fires, ends in
    success with the same form data. *)
Theorem rejection_leaves_form_usable (fd : FormData) :
  after_rejection fd = Component fd error []
  ∧ error_shown (after_rejection fd) = true
  ∧ form_rendered (after_rejection fd) && negb (submit_disabled (after_rejection fd)) = true
  ∧ (∀ name value,
       step (Change name value) (after_rejection fd)
       = Component (<[name := value]> fd) error [])
  ∧ step ClickReset (after_rejection fd) = after_rejection fd
  ∧ error_shown (step Submit (after_rejection fd)) = false
  ∧ run [Submit; Timeout] (after_rejection fd) = Component fd success [].
Proof. repeat split. Qed.

(** X7.  [handleSubmit] has no guard of its own: called [n] times in a row
    it queues [n] timers, whatever the state was, and never touches the
    form data.  Only the disabled button keeps a second call away; with two
    calls, the second timer would switch a form that was reset in between
    back to success. *)
Theorem handleSubmit_queues_a_timer_per_call :
  (∀ n c,
     Nat.iter (S n) handleSubmit c
     = Component (formData c) loading
         (timers c ++ replicate (S n) simulated_request))
  ∧ (∀ fd s,
       fire (handleReset (fire (handleSubmit (handleSubmit (Component fd s [])))))
       = Component EMPTY_FORM success []).
Proof.
  split; [|done].
  intros n c. induction n as [|n IH].
  - by destruct c.
  - change (Nat.iter (S (S n)) handleSubmit c)
      with (handleSubmit (Nat.iter (S n) handleSubmit c)).
    rewrite IH. unfold handleSubmit, setTimeout, setFormState. simpl.
    f_equal. rewrite <- app_assoc. f_equal.
    change (simulated_request :: replicate n simulated_request)
      with (replicate (S n) simulated_request).
    by rewrite <- replicate_cons_app.
Qed.

End ContactLifecycle.

(* ===================================================================== *)
(** ** Portfolio.tsx: React keys and what assistive technology is given    *)
(* ===================================================================== *)

Module PortfolioTrack.
Import Portfolio.

(** The React keys of the track's children, in order. *)
Definition keys (items : list PortfolioItem) : list string :=
  (marquee_track items).*1.

(** The cards that are not [aria-hidden]: what a screen reader is given. *)
Definition announced (items : list PortfolioItem) : list card :=
  filter (λ c, aria_hidden c = false) (marquee_track items).*2.

(** The key of the clone of an item with the given id: [`clone-${item.id}`]. *)
Definition clone_key (item_id : string) : string := ("clone-" ++ item_id)%string.

#[export] Instance clone_key_inj : Inj (=) (=) clone_key.
Proof. intros a b H. unfold clone_key in H. simpl in H. by simplify_eq. Qed.

Lemma keys_unfold items :
  keys items = ((id <$> items) ++ (clone_key <$> (id <$> items)))%list.
Proof.
  unfold keys, marquee_track. rewrite fmap_app, <- !list_fmap_compose.
  reflexivity.
Qed.

(** X8.  The keys of the track are pairwise different exactly when the item
    ids are pairwise different and no id is ["clone-"] followed by another
    item's id; an item list with the ids ["p01"] and ["clone-p01"] gives two
    children the same key. *)
Theorem track_keys_unique_iff (items : list PortfolioItem) :
  NoDup (keys items)
  ↔ NoDup (id <$> items)
    ∧ ∀ a b, a ∈ items → b ∈ items → id a ≠ clone_key (id b).
Proof.
  rewrite keys_unfold, NoDup_app, (NoDup_fmap clone_key). split.
  - intros (Hids & Hcross & _). split; [done|].
    intros a b Ha Hb Heq. apply (Hcross (id a)).
    + apply list_elem_of_fmap. by exists a.
    + rewrite Heq. apply list_elem_of_fmap. exists (id b). split; [done|].
      apply list_elem_of_fmap. by exists b.
  - intros (Hids & Hcross). split; [done|]. split; [|done].
    intros k Hk Hk'.
    apply list_elem_of_fmap in Hk as (a & -> & Ha).
    apply list_elem_of_fmap in Hk' as (kb & Heq & Hkb).
    apply list_elem_of_fmap in Hkb as (b & -> & Hb).
    by apply (Hcross a b).
Qed.

Example clone_prefixed_id_collides :
  keys [Item "p01" "a" "b" "c" "d"; Item "clone-p01" "e" "f" "g" "h"]
  = ["p01"; "clone-p01"; "clone-p01"; "clone-clone-p01"].
Proof. reflexivity. Qed.

Lemma filter_fmap_all {A B} (P : B → Prop) `{!∀ x, Decision (P x)}
    (f : A → B) (l : list A) :
  (∀ x, P (f x)) → filter P (f <$> l) = f <$> l.
Proof.
  intros HP. induction l as [|x l IH]; [done|].
  rewrite fmap_cons, filter_cons_True by done. by rewrite IH.
Qed.

Lemma filter_fmap_none {A B} (P : B → Prop) `{!∀ x, Decision (P x)}
    (f : A → B) (l : list A) :
  (∀ x, ¬ P (f x)) → filter P (f <$> l) = [].
Proof.
  intros HP. induction l as [|x l IH]; [done|].
  by rewrite fmap_cons, filter_cons_False.
Qed.

(** X9.  Assistive technology is given every item exactly once, in order:
    the cards that are not hidden are the originals, one per item, each
    with the alt text [title — DroneLENS]; no clone is among them. *)
Theorem announced_cards_are_the_items (items : list PortfolioItem) :
  announced items = (λ item, PortfolioCard item false) <$> items
  ∧ card_item <$> announced items = items
  ∧ Forall (λ c, alt c = (title (card_item c) ++ " — DroneLENS")%string)
      (announced items).
Proof.
  assert (announced items = (λ item, PortfolioCard item false) <$> items) as ->.
  { unfold announced, marquee_track.
    rewrite fmap_app, <- !list_fmap_compose, filter_app.
    rewrite filter_fmap_all by done.
    rewrite filter_fmap_none by done.
    by rewrite app_nil_r. }
  split; [done|]. split.
  - rewrite <- list_fmap_compose. apply list_fmap_id.
  - apply Forall_fmap, Forall_forall. by intros item _.
Qed.

End PortfolioTrack.

(* ===================================================================== *)
(** ** ThemeToggle.tsx: the rendered button                                *)
(* ===================================================================== *)

Module ThemeToggleButton.
Import ThemeToggle.

(** [<Sun/>] or [<Moon/>], keyed ['sun'] and ['moon']. *)
Inductive icon : Set := Sun | Moon.

(** What the component returns: before the mount effect has run, a
    placeholder [<div aria-hidden="true"/>] without any handler; afterwards
    the button with its label, title and icon. *)
Inductive element : Set :=
  | Placeholder
  | Button (aria_label title : string) (shown : icon).

(** [aria-label={isDark ? 'Mudar para modo claro' : 'Mudar para modo escuro'}] *)
Definition aria_label (theme : option string) : string :=
  if isDark theme then "Mudar para modo claro" else "Mudar para modo escuro".

(** [title={isDark ? 'Modo claro' : 'Modo escuro'}] *)
Definition title (theme : option string) : string :=
  if isDark theme then "Modo claro" else "Modo escuro".

(** [{isDark ? <Sun/> : <Moon/>}] *)
Definition shown_icon (theme : option string) : icon :=
  if isDark theme then Sun else Moon.

(** [ThemeToggle], with its [mounted] state cell. *)
Definition render (mounted : bool) (theme : option string) : element :=
  if negb mounted then Placeholder
  else Button (aria_label theme) (title theme) (shown_icon theme).

(** A click where the toggle is: on the placeholder nothing listens. *)
Definition click (mounted : bool) (theme : option string) : option string :=
  match render mounted theme with
  | Placeholder => theme
  | Button _ _ _ => onClick theme
  end.

Lemma isDark_onClick theme : isDark (onClick theme) = negb (isDark theme).
Proof.
  unfold onClick, setTheme. by destruct (isDark theme).
Qed.

(** X10.  Every click flips the toggle, from any theme value: [isDark]
    after the click is the negation of [isDark] before it.  After [n + 1]
    clicks the theme is dark or light by the parity of the clicks and
    whether it was dark at first; three clicks equal one. *)
Theorem click_flips_theme (theme : option string) :
  isDark (onClick theme) = negb (isDark theme)
  ∧ (∀ n, Nat.iter (S n) onClick theme
          = Some (if xorb (isDark theme) (Nat.odd (S n)) then "dark" else "light"))
  ∧ onClick (onClick (onClick theme)) = onClick theme.
Proof.
  split; [apply isDark_onClick|]. split.
  - induction n as [|n IH].
    + simpl. unfold onClick, setTheme. by destruct (isDark theme).
    + change (Nat.iter (S (S n)) onClick theme)
        with (onClick (Nat.iter (S n) onClick theme)).
      rewrite IH. rewrite (Nat.odd_succ (S n)), <- Nat.negb_odd.
      by destruct (isDark theme), (Nat.odd (S n)).
  - unfold onClick, setTheme. by destruct (isDark theme).
Qed.

(** X11.  The button says what a click will do: its label is "Mudar para
    modo claro" (and its icon the sun) exactly when the click sets the
    theme to light, "Mudar para modo escuro" (and the moon) exactly when it
    sets it to dark; each click changes label and icon.  Before the mount
    effect there is no button, and a click changes nothing. *)
Theorem button_announces_its_action (theme : option string) :
  (aria_label theme = "Mudar para modo claro" ↔ onClick theme = Some "light")
  ∧ (aria_label theme = "Mudar para modo escuro" ↔ onClick theme = Some "dark")
  ∧ (shown_icon theme = Sun ↔ onClick theme = Some "light")
  ∧ render true (click true theme) ≠ render true theme
  ∧ render false theme = Placeholder
  ∧ click false theme = theme.
Proof.
  unfold aria_label, shown_icon, click, render, onClick, setTheme,
    aria_label, title, shown_icon.
  simpl. destruct (isDark theme) eqn:E; simpl; rewrite ?E; simpl;
    repeat split; try done.
Qed.

End ThemeToggleButton.

(* ===================================================================== *)
(** ** Testimonials.tsx: how many stars a rating fills                     *)
(* ===================================================================== *)

Module StarCount.
Import Testimonials.

(** The number of stars that got the filled class. *)
Definition count_filled (rating : number) : nat :=
  length (filter (λ s, filled s = true) (StarRating rating)).

(** [aria-label={`Avaliação ${rating} de 5 estrelas`}] for a whole-number
    rating of at most 2^53 in absolute value.  Such a number prints as its
    exact decimal digits, with a minus sign when negative, which is what
    [pretty] gives; beyond 2^53 JS prints the shortest digits that read
    back as the same number, and this definition does not apply. *)
Definition aria_label (rating : Z) : string :=
  "Avaliação " +:+ pretty rating +:+ " de 5 estrelas".

Lemma Qceiling_gt (z : Z) (q : Q) : (inject_Z z < q)%Q → (z < Qceiling q)%Z.
Proof.
  intros H. rewrite Zlt_Qlt. eapply Qlt_le_trans; [exact H|apply Qle_ceiling].
Qed.

Lemma Qceiling_le (z : Z) (q : Q) : (q <= inject_Z z)%Q → (Qceiling q ≤ z)%Z.
Proof.
  intros H. pose proof (Qceiling_lt q) as Hc.
  assert (Qceiling q - 1 < z)%Z; [|lia].
  rewrite Zlt_Qlt. eapply Qlt_le_trans; [exact Hc|exact H].
Qed.

(** An index is below a rational rating exactly when it is below the
    rating rounded up. *)
Lemma index_lt_ceiling i q :
  index_lt i (Finite q) = index_lt i (of_int (Qceiling q)).
Proof.
  rewrite index_lt_of_int.
  destruct (Qlt_le_dec (inject_Z (Z.of_nat i)) q) as [H|H].
  - rewrite index_lt_true by done. symmetry. apply bool_decide_eq_true_2.
    by apply Qceiling_gt.
  - rewrite index_lt_false by done. symmetry. apply bool_decide_eq_false_2.
    apply Qceiling_le in H. lia.
Qed.

Lemma count_filled_of_int z :
  count_filled (of_int z) = Z.to_nat (Z.min (Z.max z 0) 5).
Proof.
  unfold count_filled. rewrite StarRating_unfold, !index_lt_of_int.
  assert (z ≤ 0 ∨ z = 1 ∨ z = 2 ∨ z = 3 ∨ z = 4 ∨ 5 ≤ z)%Z as Hz by lia.
  destruct Hz as [H | [-> | [-> | [-> | [-> | H]]]]]; try reflexivity.
  - rewrite Z.max_r, Z.min_l by lia.
    by rewrite !bool_decide_eq_false_2 by lia.
  - rewrite Z.max_l, Z.min_r by lia.
    by rewrite !bool_decide_eq_true_2 by lia.
Qed.

Lemma StarRating_ceiling (q : Q) :
  StarRating (Finite q) = StarRating (of_int (Qceiling q)).
Proof. rewrite !StarRating_unfold. by rewrite !index_lt_ceiling. Qed.

(** X12.  A fractional rating is rounded up in the stars: the list of
    stars rendered for a finite rating is the one rendered for its ceiling,
    so the number of filled stars is the ceiling clamped to 0..5 (4.5
    fills five stars, 0.1 fills one).  This is about the stars only; the
    label of the wrapper prints the rating as given. *)
Theorem fractional_rating_rounds_up (q : Q) :
  StarRating (Finite q) = StarRating (of_int (Qceiling q))
  ∧ count_filled (Finite q) = Z.to_nat (Z.min (Z.max (Qceiling q) 0) 5).
Proof.
  split; [apply StarRating_ceiling|].
  unfold count_filled. rewrite StarRating_ceiling. apply count_filled_of_int.
Qed.

Example four_and_a_half_fills_five : count_filled (Finite (9 # 2)) = 5%nat.
Proof. reflexivity. Qed.

(** X13.  A higher rating never shows fewer stars: if [q1 <= q2], every
    star filled for [q1] is filled for [q2]. *)
Theorem stars_monotone (q1 q2 : Q) :
  (q1 <= q2)%Q →
  (∀ i, index_lt i (Finite q1) = true → index_lt i (Finite q2) = true)
  ∧ (count_filled (Finite q1) ≤ count_filled (Finite q2))%nat.
Proof.
  intros Hle. apply Qceiling_resp_le in Hle. split.
  - intros i. rewrite !index_lt_ceiling, !index_lt_of_int.
    intros H%bool_decide_eq_true_1. apply bool_decide_eq_true_2. lia.
  - unfold count_filled. rewrite !StarRating_ceiling.
    fold (count_filled (of_int (Qceiling q1))).
    fold (count_filled (of_int (Qceiling q2))).
    rewrite !count_filled_of_int. lia.
Qed.

Lemma stars_monotone_witness :
  (3 <= 9 # 2)%Q
  ∧ (count_filled (Finite 3) ≤ count_filled (Finite (9 # 2)))%nat.
Proof.
  assert (3 <= 9 # 2)%Q as H by (unfold Qle; simpl; lia).
  split; [exact H|]. exact (proj2 (stars_monotone 3 (9 # 2) H)).
Defined.

Lemma string_length_app (s1 s2 : string) :
  String.length (s1 +:+ s2) = (String.length s1 + String.length s2)%nat.
Proof. induction s1 as [|a s1 IH]; simpl; [done|by rewrite IH]. Qed.

Lemma string_app_inj_r (t s1 s2 : string) : s1 +:+ t = s2 +:+ t → s1 = s2.
Proof.
  revert s2. induction s1 as [|a s1 IH]; intros [|b s2] H.
  - done.
  - apply (f_equal String.length) in H.
    rewrite !string_length_app in H. simpl in H. lia.
  - apply (f_equal String.length) in H.
    rewrite !string_length_app in H. simpl in H. lia.
  - cbn in H. injection H as -> H. f_equal. by apply IH.
Qed.

Lemma aria_label_inj z1 z2 : aria_label z1 = aria_label z2 → z1 = z2.
Proof.
  unfold aria_label. intros H. apply (inj _) in H.
  apply string_app_inj_r in H. by apply (inj pretty).
Qed.

(** X14.  The label read to screen readers prints the rating as given,
    while the stars are clamped: for a whole-number rating of at most 2^53
    in absolute value the label names the number of filled stars exactly
    when the rating is between 0 and 5; a rating of 7 is announced as
    "7 de 5 estrelas" over five filled stars. *)
Theorem label_matches_stars_iff_in_range (z : Z) :
  (- 2 ^ 53 ≤ z ≤ 2 ^ 53)%Z →
  (aria_label z = aria_label (Z.of_nat (count_filled (of_int z)))
   ↔ (0 ≤ z ≤ 5)%Z)
  ∧ aria_label 7 = "Avaliação 7 de 5 estrelas"
  ∧ count_filled (of_int 7) = 5%nat.
Proof.
  intros _. split; [|done].
  rewrite count_filled_of_int. split.
  - intros H%aria_label_inj. lia.
  - intros H. f_equal. lia.
Qed.

Lemma label_matches_stars_iff_in_range_witness :
  (- 2 ^ 53 ≤ 3 ≤ 2 ^ 53)%Z
  ∧ aria_label 3 = aria_label (Z.of_nat (count_filled (of_int 3))).
Proof.
  assert (- 2 ^ 53 ≤ 3 ≤ 2 ^ 53)%Z as H by (split; discriminate).
  split; [exact H|].
  apply (proj1 (label_matches_stars_iff_in_range 3 H)). lia.
Defined.

End StarCount.

(* ===================================================================== *)
(** ** Navbar.tsx: scroll state, mobile menu and scroll-spy                *)
(* ===================================================================== *)

Module Navbar.

(** An element of [NAV_LINKS] (src/lib/constants.ts). *)
Record NavLink : Set := Link { label : string; href : string }.

Definition NAV_LINKS : list NavLink := [
  Link "Início"    "#hero";
  Link "Serviços"  "#servicos";
  Link "Portfólio" "#portfolio";
  Link "Sobre"     "#sobre";
  Link "Cobertura" "#cobertura";
  Link "Contato"   "#contato"
].

(** The [id]s of the [<section>] elements of the page (page.tsx), in
    document order. *)
Definition PAGE_SECTION_IDS : list string :=
  ["hero"; "servicos"; "sobre"; "portfolio"; "cobertura"; "contato"].

(** [s.replace(c, '')] for a one-character pattern: the first occurrence of
    the character is removed, later ones stay. *)
Fixpoint remove_first (c : Ascii.ascii) (s : string) : string :=
  match s with
  | EmptyString => EmptyString
  | String a s' => if Ascii.eqb a c then s' else String a (remove_first c s')
  end.

(** [href.replace('#', '')]; ['#'] is character 35. *)
Definition section_of (href : string) : string := remove_first (Ascii.ascii_of_nat 35) href.

(** [const sectionIds = NAV_LINKS.map((l) => l.href.replace('#', ''))] *)
Definition sectionIds : list string := (λ l, section_of (href l)) <$> NAV_LINKS.

(** The elements the observer is given:
    [sectionIds.forEach((id) => { const el = document.getElementById(id);
                                  if (el) observer.observe(el) })] *)
Definition observed : list string :=
  filter (λ id, id ∈ PAGE_SECTION_IDS) sectionIds.

(** The three [useState] cells of [Navbar]. *)
Record navbar : Set := State {
  scrolled      : bool;
  menuOpen      : bool;
  activeSection : string;
}.

(** [useState(false)], [useState(false)], [useState('hero')]. *)
Definition initial : navbar := State false false "hero".

(** [onScroll]: [setScrolled(window.scrollY > 60)]; the scroll position is
    a finite number, compared exactly. *)
Definition onScroll (scrollY : Q) (nb : navbar) : navbar :=
  State (negb (Qle_bool scrollY 60)) (menuOpen nb) (activeSection nb).

(** An [IntersectionObserverEntry], as far as the callback reads it. *)
Record entry : Set := Entry { target_id : string; isIntersecting : bool }.

(** The observer callback:
<<
      entries.forEach((entry) => {
        if (entry.isIntersecting) setActiveSection(entry.target.id) })
>> *)
Definition onIntersect (entries : list entry) (nb : navbar) : navbar :=
  foldl (λ nb e,
           if isIntersecting e
           then State (scrolled nb) (menuOpen nb) (target_id e)
           else nb)
        nb entries.

(** The hamburger button: [setMenuOpen((v) => !v)]. *)
Definition toggleMenu (nb : navbar) : navbar :=
  State (scrolled nb) (negb (menuOpen nb)) (activeSection nb).

(** [handleNavClick(href)]: [setMenuOpen(false)], then the target is
    scrolled into view (which changes no state cell). *)
Definition handleNavClick (target : string) (nb : navbar) : navbar :=
  State (scrolled nb) false (activeSection nb).

(** [const isActive = activeSection === sectionId] for a desktop link. *)
Definition isActive (l : NavLink) (nb : navbar) : bool :=
  bool_decide (activeSection nb = section_of (href l)).

(** The desktop links that carry the underline. *)
Definition underlined (nb : navbar) : list NavLink :=
  filter (λ l, isActive l nb = true) NAV_LINKS.

Inductive event : Type :=
  | Scroll (scrollY : Q)
  | Intersect (entries : list entry)
  | ToggleMenu
  | NavClick (target : string).

Definition step (e : event) (nb : navbar) : navbar :=
  match e with
  | Scroll y => onScroll y nb
  | Intersect entries => onIntersect entries nb
  | ToggleMenu => toggleMenu nb
  | NavClick target => handleNavClick target nb
  end.

Fixpoint run (evs : list event) (nb : navbar) : navbar :=
  match evs with
  | [] => nb
  | e :: evs => run evs (step e nb)
  end.

(** The observer reports only elements it was given. *)
Definition from_observer (e : event) : Prop :=
  match e with
  | Intersect entries => Forall (λ en, target_id en ∈ observed) entries
  | _ => True
  end.

(** Events of the window and the observer, as opposed to clicks. *)
Definition passive (e : event) : bool :=
  match e with
  | Scroll _ | Intersect _ => true
  | ToggleMenu | NavClick _ => false
  end.

Example section_of_examples :
  section_of "#contato" = "contato" ∧ section_of "a#b#c" = "ab#c"
  ∧ section_of "hero" = "hero".
Proof. done. Qed.

Lemma navbar_run_snoc evs e nb : run (evs ++ [e]) nb = step e (run evs nb).
Proof. revert nb. induction evs as [|e' evs IH]; intros nb; simpl; [done|apply IH]. Qed.

Lemma onIntersect_cons e es nb :
  onIntersect (e :: es) nb
  = onIntersect es (if isIntersecting e
                    then State (scrolled nb) (menuOpen nb) (target_id e)
                    else nb).
Proof. reflexivity. Qed.

Lemma onIntersect_frame entries nb :
  scrolled (onIntersect entries nb) = scrolled nb
  ∧ menuOpen (onIntersect entries nb) = menuOpen nb.
Proof.
  revert nb. induction entries as [|e es IH]; intros nb; [done|].
  rewrite onIntersect_cons.
  destruct (IH (if isIntersecting e
                then State (scrolled nb) (menuOpen nb) (target_id e)
                else nb)) as [H1 H2].
  rewrite H1, H2. by destruct (isIntersecting e).
Qed.

Lemma onIntersect_active entries nb :
  activeSection (onIntersect entries nb)
  = from_option target_id (activeSection nb)
      (last (filter (λ e, isIntersecting e = true) entries)).
Proof.
  revert nb. induction entries as [|e es IH]; intros nb; [done|].
  rewrite onIntersect_cons, IH.
  destruct (isIntersecting e) eqn:E.
  - rewrite filter_cons_True by done. simpl.
    destruct (filter (λ e0, isIntersecting e0 = true) es) as [|e' l] using rev_ind;
      [done|]. by rewrite last_cons, last_snoc.
  - rewrite filter_cons_False; [done|]. by rewrite E.
Qed.

(** X15.  Scroll-spy: after a batch of intersection entries the active
    section is the target of the last entry of the batch that is
    intersecting; a batch without one leaves it as it was.  The other two
    state cells are never touched by the observer. *)
Theorem last_intersecting_entry_wins (entries : list entry) (nb : navbar) :
  activeSection (onIntersect entries nb)
  = from_option target_id (activeSection nb)
      (last (filter (λ e, isIntersecting e = true) entries))
  ∧ scrolled (onIntersect entries nb) = scrolled nb
  ∧ menuOpen (onIntersect entries nb) = menuOpen nb.
Proof. split; [apply onIntersect_active|apply onIntersect_frame]. Qed.

Lemma observed_all : observed = sectionIds.
Proof. reflexivity. Qed.

Lemma onIntersect_observed entries nb :
  Forall (λ en, target_id en ∈ observed) entries →
  activeSection nb ∈ sectionIds →
  activeSection (onIntersect entries nb) ∈ sectionIds.
Proof.
  intros Hobs Hnb. rewrite onIntersect_active.
  destruct (last (filter _ entries)) as [e|] eqn:E; [|done]. simpl.
  apply last_Some_elem_of, list_elem_of_filter in E as [_ He].
  rewrite Forall_forall in Hobs. rewrite <- observed_all. by apply Hobs.
Qed.

Lemma step_active_in_sections e nb :
  from_observer e → activeSection nb ∈ sectionIds →
  activeSection (step e nb) ∈ sectionIds.
Proof.
  destruct e; simpl; try done. apply onIntersect_observed.
Qed.

Lemma one_underlined nb : activeSection nb ∈ sectionIds → length (underlined nb) = 1%nat.
Proof.
  destruct nb as [sc mo act]. unfold sectionIds. simpl. intros H.
  repeat (apply elem_of_cons in H as [->|H]; [reflexivity|]).
  by apply elem_of_nil in H.
Qed.

(** X16.  Exactly one desktop link carries the underline at every moment:
    every nav link's section exists on the page and is observed, the
    initial active section is one of them, and whatever the window, the
    observer and the user do, the active section stays one of them. *)
Theorem exactly_one_link_underlined (evs : list event) :
  Forall from_observer evs →
  length (underlined (run evs initial)) = 1%nat
  ∧ activeSection (run evs initial) ∈ sectionIds
  ∧ observed = sectionIds.
Proof.
  intros Hevs.
  assert (activeSection (run evs initial) ∈ sectionIds) as Hin.
  { assert (∀ nb, activeSection nb ∈ sectionIds →
                  activeSection (run evs nb) ∈ sectionIds) as Hrun.
    { induction Hevs as [|e evs He _ IH]; intros nb Hnb; [done|].
      simpl. by apply IH, step_active_in_sections. }
    apply Hrun. unfold sectionIds. simpl. apply list_elem_of_here. }
  split; [by apply one_underlined|]. by split.
Qed.

Lemma exactly_one_link_underlined_witness :
  Forall from_observer
    [Scroll 120; Intersect [Entry "hero" false; Entry "servicos" true];
     ToggleMenu; NavClick "#contato"]
  ∧ length (underlined
      (run [Scroll 120; Intersect [Entry "hero" false; Entry "servicos" true];
            ToggleMenu; NavClick "#contato"] initial)) = 1%nat.
Proof.
  assert (Forall from_observer
    [Scroll 120; Intersect [Entry "hero" false; Entry "servicos" true];
     ToggleMenu; NavClick "#contato"]) as H.
  { apply Forall_cons. split; [exact I|].
    apply Forall_cons. split.
    - simpl. apply Forall_cons. split; [compute_done|].
      apply Forall_cons. split; [compute_done|]. apply Forall_nil_2.
    - apply Forall_cons. split; [exact I|].
      apply Forall_cons. split; [exact I|]. apply Forall_nil_2. }
  split; [exact H|]. exact (proj1 (exactly_one_link_underlined _ H)).
Defined.

Lemma toggleMenu_iter n nb :
  Nat.iter n toggleMenu nb
  = State (scrolled nb) (xorb (menuOpen nb) (Nat.odd n)) (activeSection nb).
Proof.
  induction n as [|n IH].
  - destruct nb as [sc mo act]. simpl. by rewrite xorb_false_r.
  - change (Nat.iter (S n) toggleMenu nb) with (toggleMenu (Nat.iter n toggleMenu nb)).
    rewrite IH. unfold toggleMenu. simpl. f_equal.
    rewrite Nat.odd_succ, <- Nat.negb_odd.
    by destruct (menuOpen nb), (Nat.odd n).
Qed.

Lemma passive_menuOpen evs nb :
  forallb passive evs = true → menuOpen (run evs nb) = menuOpen nb.
Proof.
  revert nb. induction evs as [|e evs IH]; intros nb H; [done|].
  simpl in H. apply andb_true_iff in H as [He Hevs]. simpl.
  rewrite IH by done. destruct e; try done. apply onIntersect_frame.
Qed.

(** X17.  The mobile menu: any nav click leaves it closed, whatever
    happened before; [n] presses of the hamburger button leave it open or
    closed by the parity of [n], everything else unchanged; scrolling and
    the observer never open or close it. *)
Theorem menu_follows_clicks_only :
  (∀ evs target nb, menuOpen (run (evs ++ [NavClick target]) nb) = false)
  ∧ (∀ n nb,
       Nat.iter n toggleMenu nb
       = State (scrolled nb) (xorb (menuOpen nb) (Nat.odd n)) (activeSection nb))
  ∧ (∀ evs nb, forallb passive evs = true →
               menuOpen (run evs nb) = menuOpen nb).
Proof.
  split; [|split].
  - intros evs target nb. by rewrite navbar_run_snoc.
  - apply toggleMenu_iter.
  - apply passive_menuOpen.
Qed.

End Navbar.

(* ===================================================================== *)
(** ** Hero.tsx: the headline, word by word                                *)
(* ===================================================================== *)

Module Hero.

(** [const HEADLINE_WORDS = ['Voe', 'além', 'do', 'convencional.']] *)
Definition HEADLINE_WORDS : list string := ["Voe"; "além"; "do"; "convencional."].

(** One [<motion.span key={word} className={...}>{word}</motion.span>]. *)
Record word_span : Set := Span { key : string; className : string; text : string }.

(** The children of the headline for a list of words:
<<
      words.map((word, i) => (
        <motion.span key={word}
          className={i === words.length - 1 ? 'text-gradient' : 'text-white'}>
          {word}</motion.span>))
>>
    [words.length - 1] is [-1] for the empty list, hence the integers. *)
Definition headline (words : list string) : list word_span :=
  imap (λ i word,
          Span word
               (if bool_decide (Z.of_nat i = Z.of_nat (length words) - 1)%Z
                then "text-gradient" else "text-white")
               word)
       words.

Example headline_classes :
  className <$> headline HEADLINE_WORDS
  = ["text-white"; "text-white"; "text-white"; "text-gradient"].
Proof. reflexivity. Qed.

Lemma headline_lookup words i :
  headline words !! i
  = (λ word, Span word
               (if bool_decide (Z.of_nat i = Z.of_nat (length words) - 1)%Z
                then "text-gradient" else "text-white")
               word) <$> words !! i.
Proof. unfold headline. by rewrite list_lookup_imap. Qed.

Lemma no_gradient_among_white n :
  filter (λ c, c = "text-gradient") (replicate n "text-white") = [].
Proof.
  induction n as [|n IH]; [done|].
  simpl. rewrite filter_cons_False by done. exact IH.
Qed.

(** X18.  Whatever the list of words, the headline shows them in order and
    exactly the last one carries the brand gradient: all words before it
    are white, a one-word headline is all gradient, an empty one renders
    nothing. *)
Theorem only_last_word_has_gradient (words : list string) :
  text <$> headline words = words
  ∧ className <$> headline words
    = (replicate (length words - 1) "text-white"
       ++ match words with [] => [] | _ :: _ => ["text-gradient"] end)%list
  ∧ length (filter (λ s, className s = "text-gradient") (headline words))
    = (if decide (words = []) then 0 else 1)%nat.
Proof.
  assert (className <$> headline words
          = (replicate (length words - 1) "text-white"
             ++ match words with [] => [] | _ :: _ => ["text-gradient"] end)%list)
    as Hcls.
  { apply list_eq. intros i.
    rewrite list_lookup_fmap, headline_lookup.
    destruct (words !! i) as [w|] eqn:E; simpl.
    - pose proof (lookup_lt_Some _ _ _ E) as Hlt.
      destruct (decide (i = length words - 1)%nat) as [->|Hne].
      + rewrite bool_decide_eq_true_2 by lia.
        rewrite lookup_app_r by (rewrite length_replicate; lia).
        rewrite length_replicate, Nat.sub_diag. by destruct words.
      + rewrite bool_decide_eq_false_2 by lia.
        rewrite lookup_app_l by (rewrite length_replicate; lia).
        symmetry. apply lookup_replicate_2. lia.
    - symmetry. apply lookup_ge_None_2. apply lookup_ge_None_1 in E.
      rewrite length_app, length_replicate. destruct words; simpl in *; lia. }
  split; [|split; [exact Hcls|]].
  - apply list_eq. intros i. rewrite list_lookup_fmap, headline_lookup.
    by destruct (words !! i).
  - assert (∀ l : list word_span,
              length (filter (λ s, className s = "text-gradient") l)
              = length (filter (λ c, c = "text-gradient") (className <$> l)))
      as Hf.
    { induction l as [|s l IH]; [done|]. rewrite fmap_cons.
      destruct (decide (className s = "text-gradient")) as [Hs|Hs].
      - rewrite !filter_cons_True by done. simpl. by rewrite IH.
      - by rewrite !filter_cons_False by done. }
    rewrite Hf, Hcls, filter_app, length_app.
    rewrite no_gradient_among_white. by destruct words.
Qed.

End Hero.

(* ===================================================================== *)
(** ** Process.tsx: step cards, their icons and numbered badges            *)
(* ===================================================================== *)

Module Process.

(** The three lucide icons the file imports. *)
Inductive lucide_icon : Set := MessageSquare | Navigation | Package.

(** [const STEP_ICONS = [MessageSquare, Navigation, Package]] *)
Definition STEP_ICONS : list lucide_icon := [MessageSquare; Navigation; Package].

(** An element of [PROCESS_STEPS] (src/lib/constants.ts). *)
Record process_step : Set := Step {
  step        : string;
  title       : string;
  description : string;
}.

Definition PROCESS_STEPS : list process_step := [
  Step "01" "Briefing"
    ("Entendemos seus objetivos, o ambiente de voo e as expectativas de entrega. "
     +:+ "Cada projeto começa com uma conversa honesta.");
  Step "02" "Planejamento de Voo"
    ("Nossa equipe elabora o roteiro de captação, verifica as regras da ANAC "
     +:+ "para o espaço aéreo e prepara o equipamento DJI ideal para o projeto.");
  Step "03" "Captação e Edição"
    ("Voamos, capturamos e editamos com maestria. Você recebe o material "
     +:+ "em alta resolução, pronto para publicação ou uso profissional.")
].

(** ['0'.repeat(n)] *)
Fixpoint zeros (n : nat) : string :=
  match n with
  | O => ""
  | S n => String (Ascii.ascii_of_nat 48) (zeros n)
  end.

(** [s.padStart(n, '0')]: [s] itself when it has [n] characters or more,
    otherwise zeros in front up to length [n]. *)
Definition padStart0 (n : nat) (s : string) : string :=
  zeros (n - String.length s) +:+ s.

(** [String(index + 1).padStart(2, '0')], the number in the badge.  The
    index is an array index, below 2^32, so [String] gives the exact
    decimal digits. *)
Definition badge (index : nat) : string := padStart0 2 (pretty (index + 1)%nat).

(** What [StepCard] renders for a step at an index: the large number behind
    the card (the table's [step] text), the badge, the icon
    [STEP_ICONS[index]] ([None] is [undefined], which React cannot render
    as a component), title and description. *)
Record step_card : Set := Card {
  big_number  : string;
  card_badge  : string;
  card_icon   : option lucide_icon;
  card_title  : string;
  card_text   : string;
}.

Definition StepCard (s : process_step) (index : nat) : step_card :=
  Card (step s) (badge index) (STEP_ICONS !! index) (title s) (description s).

(** [steps.map((step, i) => <StepCard step={step} index={i} />)] *)
Definition cards (steps : list process_step) : list step_card :=
  imap (λ i s, StepCard s i) steps.

Example badges : badge 0 = "01" ∧ badge 8 = "09" ∧ badge 9 = "10" ∧ badge 122 = "123".
Proof. done. Qed.

Lemma cards_lookup steps i : cards steps !! i = (λ s, StepCard s i) <$> steps !! i.
Proof. unfold cards. by rewrite list_lookup_imap. Qed.

(** X19.  Every card has an icon exactly when there are at most three
    steps: the icon is looked up by position in a three-element array, so a
    fourth step would get [undefined] for its icon.  The three steps of the
    table all have one. *)
Theorem every_card_has_icon_iff (steps : list process_step) :
  (Forall (λ c, is_Some (card_icon c)) (cards steps) ↔ (length steps ≤ 3)%nat)
  ∧ card_icon <$> cards PROCESS_STEPS
    = [Some MessageSquare; Some Navigation; Some Package].
Proof.
  split; [|done]. rewrite Forall_lookup. split.
  - intros H. destruct (decide (length steps ≤ 3)%nat) as [|Hgt]; [done|].
    destruct (lookup_lt_is_Some_2 steps 3) as [s Hs]; [lia|].
    destruct (H 3%nat (StepCard s 3)) as [ic Hic].
    + by rewrite cards_lookup, Hs.
    + discriminate Hic.
  - intros Hlen i c Hc. rewrite cards_lookup in Hc.
    destruct (steps !! i) as [s|] eqn:E; [|done].
    simpl in Hc. injection Hc as <-. simpl.
    apply lookup_lt_Some in E. apply lookup_lt_is_Some_2. simpl. lia.
Qed.

Lemma zeros_length n : String.length (zeros n) = n.
Proof. induction n as [|n IH]; simpl; [done|by rewrite IH]. Qed.

Lemma append_length (s1 s2 : string) :
  String.length (s1 +:+ s2) = (String.length s1 + String.length s2)%nat.
Proof. induction s1 as [|a s1 IH]; simpl; [done|by rewrite IH]. Qed.

Lemma pretty_N_go_length x s :
  (String.length s ≤ String.length (pretty_N_go x s))%nat.
Proof.
  revert s. induction (N.lt_wf_0 x) as [x _ IH]; intros s.
  destruct (decide (0 < x)%N) as [Hx|Hx].
  - rewrite pretty_N_go_step by done.
    etrans; [|apply IH; by apply N.div_lt]. simpl. lia.
  - assert (x = 0%N) as -> by lia. by rewrite pretty_N_go_0.
Qed.

Lemma pretty_two_digits (n : nat) :
  (10 ≤ n)%nat → (2 ≤ String.length (pretty n))%nat.
Proof.
  intros Hn. unfold pretty, pretty_nat, pretty, pretty_N.
  rewrite decide_False by lia.
  rewrite pretty_N_go_step by lia.
  rewrite pretty_N_go_step.
  - etrans; [|apply pretty_N_go_length]. simpl. lia.
  - apply N.div_str_pos. lia.
Qed.

(** X20.  For an array index, the badge is the position counted from one,
    in decimal, with a leading zero for the first nine cards and none from
    the tenth on; it never has fewer than two characters.  For the steps of
    the table it repeats the number written in the table. *)
Theorem badge_is_two_digit_position (index : nat) :
  (Z.of_nat index < 2 ^ 32)%Z →
  badge index
  = (if decide (index < 9)%nat
     then String (Ascii.ascii_of_nat 48) (pretty (index + 1)%nat)
     else pretty (index + 1)%nat)
  ∧ (2 ≤ String.length (badge index))%nat
  ∧ card_badge <$> cards PROCESS_STEPS = step <$> PROCESS_STEPS.
Proof.
  intros _. split; [|split; [|done]].
  - destruct (decide (index < 9)%nat) as [Hlt|Hge].
    + assert (index = 0 ∨ index = 1 ∨ index = 2 ∨ index = 3 ∨ index = 4
              ∨ index = 5 ∨ index = 6 ∨ index = 7 ∨ index = 8)%nat
        as Hcases by lia.
      destruct Hcases as [->|[->|[->|[->|[->|[->|[->|[->| ->]]]]]]]]; reflexivity.
    + unfold badge, padStart0.
      pose proof (pretty_two_digits (index + 1)) as H2.
      replace (2 - String.length (pretty (index + 1)%nat))%nat with 0%nat by lia.
      reflexivity.
  - unfold badge, padStart0. rewrite append_length, zeros_length. lia.
Qed.

Lemma badge_is_two_digit_position_witness :
  (Z.of_nat 2 < 2 ^ 32)%Z ∧ badge 2 = "03" ∧ (2 ≤ String.length (badge 2))%nat.
Proof.
  assert (Z.of_nat 2 < 2 ^ 32)%Z as H by reflexivity.
  split; [exact H|].
  destruct (badge_is_two_digit_position 2 H) as (Hb & Hl & _).
  split; [exact Hb|exact Hl].
Defined.

End Process.
